(** * The Hive metastore Thrift server skeleton

    A shallow embedding of
    [metastore/src/gen-cpp/ThriftHiveMetastore_server.skeleton.cpp]:
    the handler class [ThriftHiveMetastoreHandler] with its 28 methods and
    the [main] function that wires the handler into a Thrift server.

    Every method body of the skeleton is one [printf] call.  The embedding
    keeps what a caller can observe of such a body: whether a [return]
    statement ran, whether an exception left the body, the final value of
    the [_return] reference parameter, the handler object and the text
    written to standard output. *)

From Stdlib Require Import String Ascii List ZArith NArith Bool Lia.
Import ListNotations.
Local Open Scope string_scope.
Local Open Scope list_scope.

(** ** Data carried by the interface *)

(** [int16_t]: the signed 16-bit [max_parts] argument.  No method computes
    with it, so the integer is kept as a [Z] together with its range. *)
Definition int16_t := Z.
Definition int16_range (z : int16_t) : Prop := (-32768 <= z <= 32767)%Z.

(** Modelled from the spec: the struct [FieldSchema] is declared in the
    generated header [ThriftHiveMetastore.h], which is not part of the
    source tree; a (name, type-name, optional comment) triple. *)
Record FieldSchema : Type := mkFieldSchema {
  fs_name : string;
  fs_type : string;
  fs_comment : option string
}.

(** Modelled from the spec: the struct [Database] of the missing header;
    a unique name, a description and an optional location hint. *)
Record Database : Type := mkDatabase {
  db_name : string;
  db_description : string;
  db_location : option string
}.

(** Modelled from the spec: the kinds of a type definition, a closed
    tagged variant; complex kinds reference other types by name. *)
Inductive TypeKind : Type :=
| Primitive
| Struct (fields : list FieldSchema)
| ListOf (element : string)
| MapOf (key value : string).

(** Modelled from the spec: the struct [Type] of the missing header (the
    name [Type] is reserved, hence [Type_]); a named type definition. *)
Record Type_ : Type := mkType {
  type_name : string;
  type_kind : TypeKind
}.

(** The type names a definition refers to. *)
Definition type_references (t : Type_) : list string :=
  match type_kind t with
  | Primitive => []
  | Struct fields => map fs_type fields
  | ListOf element => [element]
  | MapOf key value => [key; value]
  end.

(** Modelled from the spec: the struct [Table] of the missing header. *)
Record Table : Type := mkTable {
  tbl_db : string;
  tbl_name : string;
  tbl_fields : list FieldSchema;
  tbl_partitionKeys : list FieldSchema;
  tbl_location : string;
  tbl_properties : list (string * string)
}.

(** Modelled from the spec: the struct [Partition] of the missing header;
    identified by database name, table name and the ordered value list. *)
Record Partition : Type := mkPartition {
  part_db : string;
  part_table : string;
  part_values : list string;
  part_location : string;
  part_properties : list (string * string);
  part_createTime : Z;
  part_modTime : Z
}.

(** Modelled from the spec: the failure taxonomy of the catalog.  The
    skeleton declares and throws none of them; the type is needed to say
    so. *)
Inductive MetaException : Type :=
| NotFound
| AlreadyExists
| NotEmpty
| InvalidSchema
| InvalidOperation
| UnknownReference
| CyclicDependency
| StillReferenced
| Protected
| MalformedIdentifier
| Unavailable.

(** ** The handler object and the C++ bodies *)

(** [class ThriftHiveMetastoreHandler] declares no data member and its
    constructor body is empty: an object of the class carries no field. *)
Record ThriftHiveMetastoreHandler : Set := new_ThriftHiveMetastoreHandler {}.

(** What outlives a call: the handler object and standard output. *)
Record World : Type := mkWorld {
  handler : ThriftHiveMetastoreHandler;
  stdout : string
}.

(** The frame of one call: the object bound to the reference parameter
    [_return] (of type [unit] for a method without one) and the world. *)
Record Frame (T : Type) : Type := mkFrame {
  _return : T;
  world : World
}.
Arguments mkFrame {T} _ _.
Arguments _return {T} _.
Arguments world {T} _.

(** How control leaves a function body of result type [R]: through a
    [return] statement, by reaching the closing brace, or by an exception. *)
Inductive Completion (R : Type) : Type :=
| Returned (v : R)
| ReachedEnd
| Thrown (e : MetaException).
Arguments Returned {R} v.
Arguments ReachedEnd {R}.
Arguments Thrown {R} e.

(** A statement of a body with reference parameter of type [T] and result
    type [R]. *)
Definition Stmt (T R : Type) : Type := Frame T -> Completion R * Frame T.

(** [printf(s)] with a constant format: appends [s] to standard output and
    continues with the next statement. *)
Definition printf {T R : Type} (s : string) : Stmt T R :=
  fun f =>
    (ReachedEnd,
     mkFrame (_return f)
             (mkWorld (handler (world f)) (stdout (world f) ++ s))).

(** A newline-terminated line, as the literal ["...\n"] of the source. *)
Definition line (s : string) : string := s ++ String "010"%char EmptyString.

Module ThriftHiveMetastoreHandlerMethods.

Definition create_database (name description : string) : Stmt unit bool :=
  (* Your implementation goes here *)
  printf (line "create_database").

Definition get_database (name : string) : Stmt Database unit :=
  printf (line "get_database").

Definition drop_database (name : string) : Stmt unit bool :=
  printf (line "drop_database").

Definition get_databases : Stmt (list string) unit :=
  printf (line "get_databases").

Definition get_type (name : string) : Stmt Type_ unit :=
  printf (line "get_type").

Definition create_type (type : Type_) : Stmt unit bool :=
  printf (line "create_type").

Definition drop_type (type : string) : Stmt unit bool :=
  printf (line "drop_type").

(* [_return] is a [std::map<std::string, Type>]; the body never looks into
   it, so the entries are kept as a list of (name, type) pairs. *)
Definition get_type_all (name : string) : Stmt (list (string * Type_)) unit :=
  printf (line "get_type_all").

Definition get_fields (db_name table_name : string)
  : Stmt (list FieldSchema) unit :=
  printf (line "get_fields").

Definition get_schema (db_name table_name : string)
  : Stmt (list FieldSchema) unit :=
  printf (line "get_schema").

Definition create_table (tbl : Table) : Stmt unit unit :=
  printf (line "create_table").

Definition drop_table (dbname name : string) (deleteData : bool)
  : Stmt unit unit :=
  printf (line "drop_table").

Definition get_tables (db_name pattern : string) : Stmt (list string) unit :=
  printf (line "get_tables").

Definition get_table (dbname tbl_name : string) : Stmt Table unit :=
  printf (line "get_table").

Definition alter_table (dbname tbl_name : string) (new_tbl : Table)
  : Stmt unit unit :=
  printf (line "alter_table").

Definition add_partition (new_part : Partition) : Stmt Partition unit :=
  printf (line "add_partition").

Definition append_partition (db_name tbl_name : string)
  (part_vals : list string) : Stmt Partition unit :=
  printf (line "append_partition").

Definition append_partition_by_name (db_name tbl_name part_name : string)
  : Stmt Partition unit :=
  printf (line "append_partition_by_name").

Definition drop_partition (db_name tbl_name : string)
  (part_vals : list string) (deleteData : bool) : Stmt unit bool :=
  printf (line "drop_partition").

Definition drop_partition_by_name (db_name tbl_name part_name : string)
  (deleteData : bool) : Stmt unit bool :=
  printf (line "drop_partition_by_name").

Definition get_partition (db_name tbl_name : string)
  (part_vals : list string) : Stmt Partition unit :=
  printf (line "get_partition").

Definition get_partition_by_name (db_name tbl_name part_name : string)
  : Stmt Partition unit :=
  printf (line "get_partition_by_name").

Definition get_partitions (db_name tbl_name : string) (max_parts : int16_t)
  : Stmt (list Partition) unit :=
  printf (line "get_partitions").

Definition get_partition_names (db_name tbl_name : string)
  (max_parts : int16_t) : Stmt (list string) unit :=
  printf (line "get_partition_names").

Definition get_partitions_ps (db_name tbl_name : string)
  (part_vals : list string) (max_parts : int16_t)
  : Stmt (list Partition) unit :=
  printf (line "get_partitions_ps").

Definition get_partition_names_ps (db_name tbl_name : string)
  (part_vals : list string) (max_parts : int16_t)
  : Stmt (list string) unit :=
  printf (line "get_partition_names_ps").

Definition alter_partition (db_name tbl_name : string) (new_part : Partition)
  : Stmt unit unit :=
  printf (line "alter_partition").

Definition get_config_value (name defaultValue : string) : Stmt string unit :=
  printf (line "get_config_value").

End ThriftHiveMetastoreHandlerMethods.
Import ThriftHiveMetastoreHandlerMethods.

(** ** Calling a method *)

(** A call binds the caller's object [r] to [_return], runs the body in
    the current world and hands back how the body completed, the object
    bound to [_return] at that point, and the world. *)
Definition call {T R : Type} (m : Stmt T R) (r : T) (w : World)
  : Completion R * T * World :=
  let (c, f) := m (mkFrame r w) in (c, _return f, world f).

Definition completion {T R : Type} (x : Completion R * T * World)
  : Completion R := fst (fst x).
Definition returned_object {T R : Type} (x : Completion R * T * World)
  : T := snd (fst x).
Definition world_after {T R : Type} (x : Completion R * T * World)
  : World := snd x.

(** The boolean a [bool] method hands to its caller, when there is one. *)
Definition result_of {R : Type} (c : Completion R) : option R :=
  match c with
  | Returned v => Some v
  | ReachedEnd => None
  | Thrown _ => None
  end.

(** A call of a [bool] method that ran off the end of the body: no
    [return] statement ran, so there is no boolean to hand back. *)
Definition no_boolean_result {T : Type} (x : Completion bool * T * World)
  : Prop :=
  completion x = ReachedEnd
  /\ result_of (completion x) = None
  /\ forall b : bool, completion x <> Returned b.

(** The exception a call fails with, when it fails. *)
Definition failure_of {R : Type} (c : Completion R) : option MetaException :=
  match c with
  | Returned _ => None
  | ReachedEnd => None
  | Thrown e => Some e
  end.

(** One request the handler serves and comes back from: a call of one of
    the 22 methods of result type [void], with its arguments and, for a
    method with a [_return] parameter, the object the caller binds to it.
    The six methods of result type [bool] are not requests of a history:
    their bodies run off the end of a value-returning function, after
    which the behaviour of the program is undefined, so nothing can be
    said of a request that follows one. *)
Inductive Request : Type :=
| Req_get_database (r : Database) (name : string)
| Req_get_databases (r : list string)
| Req_get_type (r : Type_) (name : string)
| Req_get_type_all (r : list (string * Type_)) (name : string)
| Req_get_fields (r : list FieldSchema) (db_name table_name : string)
| Req_get_schema (r : list FieldSchema) (db_name table_name : string)
| Req_create_table (tbl : Table)
| Req_drop_table (dbname name : string) (deleteData : bool)
| Req_get_tables (r : list string) (db_name pattern : string)
| Req_get_table (r : Table) (dbname tbl_name : string)
| Req_alter_table (dbname tbl_name : string) (new_tbl : Table)
| Req_add_partition (r : Partition) (new_part : Partition)
| Req_append_partition (r : Partition) (db_name tbl_name : string)
    (part_vals : list string)
| Req_append_partition_by_name (r : Partition)
    (db_name tbl_name part_name : string)
| Req_get_partition (r : Partition) (db_name tbl_name : string)
    (part_vals : list string)
| Req_get_partition_by_name (r : Partition)
    (db_name tbl_name part_name : string)
| Req_get_partitions (r : list Partition) (db_name tbl_name : string)
    (max_parts : int16_t)
| Req_get_partition_names (r : list string) (db_name tbl_name : string)
    (max_parts : int16_t)
| Req_get_partitions_ps (r : list Partition) (db_name tbl_name : string)
    (part_vals : list string) (max_parts : int16_t)
| Req_get_partition_names_ps (r : list string) (db_name tbl_name : string)
    (part_vals : list string) (max_parts : int16_t)
| Req_alter_partition (db_name tbl_name : string) (new_part : Partition)
| Req_get_config_value (r : string) (name defaultValue : string).

(** The part of a call of a [void] method that later calls can depend
    on: the exception it failed with (if any) and the world it leaves.
    Reaching the closing brace of a [void] body is a normal return. *)
Definition outcome {T : Type} (m : Stmt T unit) (r : T) (w : World)
  : option MetaException * World :=
  let x := call m r w in (failure_of (completion x), world_after x).

Definition dispatch (q : Request) (w : World)
  : option MetaException * World :=
  match q with
  | Req_get_database r n => outcome (get_database n) r w
  | Req_get_databases r => outcome get_databases r w
  | Req_get_type r n => outcome (get_type n) r w
  | Req_get_type_all r n => outcome (get_type_all n) r w
  | Req_get_fields r d t => outcome (get_fields d t) r w
  | Req_get_schema r d t => outcome (get_schema d t) r w
  | Req_create_table t => outcome (create_table t) tt w
  | Req_drop_table d n b => outcome (drop_table d n b) tt w
  | Req_get_tables r d p => outcome (get_tables d p) r w
  | Req_get_table r d t => outcome (get_table d t) r w
  | Req_alter_table d t n => outcome (alter_table d t n) tt w
  | Req_add_partition r p => outcome (add_partition p) r w
  | Req_append_partition r d t v => outcome (append_partition d t v) r w
  | Req_append_partition_by_name r d t n =>
      outcome (append_partition_by_name d t n) r w
  | Req_get_partition r d t v => outcome (get_partition d t v) r w
  | Req_get_partition_by_name r d t n =>
      outcome (get_partition_by_name d t n) r w
  | Req_get_partitions r d t m => outcome (get_partitions d t m) r w
  | Req_get_partition_names r d t m =>
      outcome (get_partition_names d t m) r w
  | Req_get_partitions_ps r d t v m =>
      outcome (get_partitions_ps d t v m) r w
  | Req_get_partition_names_ps r d t v m =>
      outcome (get_partition_names_ps d t v m) r w
  | Req_alter_partition d t p => outcome (alter_partition d t p) tt w
  | Req_get_config_value r n d => outcome (get_config_value n d) r w
  end.

(** A history of requests (calls of [void] methods) served one after the
    other; the failures are listed in the order of the requests. *)
Fixpoint serve_all (qs : list Request) (w : World)
  : list (option MetaException) * World :=
  match qs with
  | [] => ([], w)
  | q :: qs' =>
      let (e, w') := dispatch q w in
      let (es, w'') := serve_all qs' w' in
      (e :: es, w'')
  end.

(** The world left by a history. *)
Definition world_of (qs : list Request) (w : World) : World :=
  snd (serve_all qs w).

(** A freshly constructed handler with nothing printed yet. *)
Definition initial_world : World :=
  mkWorld new_ThriftHiveMetastoreHandler "".

(** ** The methods and the lines they print *)

(** The 22 methods of result type [void], in the order of the source. *)
Inductive Method : Type :=
| M_get_database | M_get_databases
| M_get_type | M_get_type_all
| M_get_fields | M_get_schema
| M_create_table | M_drop_table | M_get_tables | M_get_table | M_alter_table
| M_add_partition | M_append_partition | M_append_partition_by_name
| M_get_partition | M_get_partition_by_name
| M_get_partitions | M_get_partition_names
| M_get_partitions_ps | M_get_partition_names_ps
| M_alter_partition | M_get_config_value.

(** The method a request calls. *)
Definition method_of (q : Request) : Method :=
  match q with
  | Req_get_database _ _ => M_get_database
  | Req_get_databases _ => M_get_databases
  | Req_get_type _ _ => M_get_type
  | Req_get_type_all _ _ => M_get_type_all
  | Req_get_fields _ _ _ => M_get_fields
  | Req_get_schema _ _ _ => M_get_schema
  | Req_create_table _ => M_create_table
  | Req_drop_table _ _ _ => M_drop_table
  | Req_get_tables _ _ _ => M_get_tables
  | Req_get_table _ _ _ => M_get_table
  | Req_alter_table _ _ _ => M_alter_table
  | Req_add_partition _ _ => M_add_partition
  | Req_append_partition _ _ _ _ => M_append_partition
  | Req_append_partition_by_name _ _ _ _ => M_append_partition_by_name
  | Req_get_partition _ _ _ _ => M_get_partition
  | Req_get_partition_by_name _ _ _ _ => M_get_partition_by_name
  | Req_get_partitions _ _ _ _ => M_get_partitions
  | Req_get_partition_names _ _ _ _ => M_get_partition_names
  | Req_get_partitions_ps _ _ _ _ _ => M_get_partitions_ps
  | Req_get_partition_names_ps _ _ _ _ _ => M_get_partition_names_ps
  | Req_alter_partition _ _ _ => M_alter_partition
  | Req_get_config_value _ _ _ => M_get_config_value
  end.

(** The identifier of a method as the source spells it. *)
Definition method_name (m : Method) : string :=
  match m with
  | M_get_database => "get_database"
  | M_get_databases => "get_databases"
  | M_get_type => "get_type"
  | M_get_type_all => "get_type_all"
  | M_get_fields => "get_fields"
  | M_get_schema => "get_schema"
  | M_create_table => "create_table"
  | M_drop_table => "drop_table"
  | M_get_tables => "get_tables"
  | M_get_table => "get_table"
  | M_alter_table => "alter_table"
  | M_add_partition => "add_partition"
  | M_append_partition => "append_partition"
  | M_append_partition_by_name => "append_partition_by_name"
  | M_get_partition => "get_partition"
  | M_get_partition_by_name => "get_partition_by_name"
  | M_get_partitions => "get_partitions"
  | M_get_partition_names => "get_partition_names"
  | M_get_partitions_ps => "get_partitions_ps"
  | M_get_partition_names_ps => "get_partition_names_ps"
  | M_alter_partition => "alter_partition"
  | M_get_config_value => "get_config_value"
  end.

(** The text a sequence of method calls leaves on standard output when
    each call prints its identifier on a line of its own. *)
Fixpoint log (ms : list Method) : string :=
  match ms with
  | [] => EmptyString
  | m :: ms' => line (method_name m) ++ log ms'
  end.

(** The number of newline characters of a text. *)
Fixpoint newlines (s : string) : nat :=
  match s with
  | EmptyString => 0
  | String c s' =>
      (if Ascii.eqb c "010" then 1 else 0) + newlines s'
  end.

(** ** Several [add_partition] calls at once

    The body of [add_partition] is a single [printf] call, which runs
    under the lock of the output stream: an execution of several calls at
    once is an execution of their bodies in some order.  [add_all] runs
    the calls in the order of the list of objects the callers bind to
    [_return]; every order of the callers is one such list. *)
Fixpoint add_all (new_part : Partition) (rs : list Partition) (w : World)
  : list (Completion unit) * World :=
  match rs with
  | [] => ([], w)
  | r :: rs' =>
      let x := call (add_partition new_part) r w in
      let (cs, w') := add_all new_part rs' (world_after x) in
      (completion x :: cs, w')
  end.

Definition is_success (c : Completion unit) : bool :=
  match c with
  | Returned _ => true
  | ReachedEnd => true
  | Thrown _ => false
  end.

Definition is_AlreadyExists (c : Completion unit) : bool :=
  match c with
  | Thrown AlreadyExists => true
  | _ => false
  end.

Definition count_if {A : Type} (p : A -> bool) (l : list A) : nat :=
  length (filter p l).

(** ** The server built by [main] *)

(** The Thrift runtime classes [main] instantiates, as the values their
    constructors are given. *)
Inductive TProcessor : Type :=
| ThriftHiveMetastoreProcessor (handler : ThriftHiveMetastoreHandler).

Inductive TServerTransport : Type :=
| TServerSocket (port : Z).

(** [transport/TBufferTransports.h] declares both factories. *)
Inductive TTransportFactory : Type :=
| TBufferedTransportFactory
| TFramedTransportFactory.

Inductive TProtocolFactory : Type :=
| TBinaryProtocolFactory.

Record TSimpleServer : Type := mkTSimpleServer {
  processor : TProcessor;
  serverTransport : TServerTransport;
  transportFactory : TTransportFactory;
  protocolFactory : TProtocolFactory
}.

(** What [main] does: the server object on which [serve()] is invoked and
    the status returned once [serve()] comes back. *)
Record MainRun : Type := mkMainRun {
  served : TSimpleServer;
  exit_status : Z
}.

Definition main (argc : Z) (argv : list string) : MainRun :=
  let port := 9090%Z in
  let handler := new_ThriftHiveMetastoreHandler in
  let processor := ThriftHiveMetastoreProcessor handler in
  let serverTransport := TServerSocket port in
  let transportFactory := TBufferedTransportFactory in
  let protocolFactory := TBinaryProtocolFactory in
  let server :=
    mkTSimpleServer processor serverTransport transportFactory protocolFactory in
  (* server.serve(); return 0; *)
  mkMainRun server 0%Z.

Definition socket_port (t : TServerTransport) : Z :=
  match t with TServerSocket port => port end.

(** ** The Identifier Codec *)

Module Codec.

(** Modelled from the spec: URL-escaping of one component of a partition
    name.  The skeleton contains no codec; the catalog's encoder and
    decoder are missing from the source tree.  A character that is not
    unreserved (letter, digit, [-], [.], [_], [~]) is written as [%] and
    the two hexadecimal digits of its code. *)
Definition unreserved (c : ascii) : bool :=
  let n := N_of_ascii c in
  ((48 <=? n) && (n <=? 57) || (65 <=? n) && (n <=? 90)
   || (97 <=? n) && (n <=? 122)
   || (n =? 45) || (n =? 46) || (n =? 95) || (n =? 126))%N.

Definition hex_digit (n : N) : ascii :=
  if (n <? 10)%N then ascii_of_N (48 + n) else ascii_of_N (55 + n).

Definition hex_value (c : ascii) : option N :=
  let n := N_of_ascii c in
  if ((48 <=? n) && (n <=? 57))%N then Some (n - 48)%N
  else if ((65 <=? n) && (n <=? 70))%N then Some (n - 55)%N
  else if ((97 <=? n) && (n <=? 102))%N then Some (n - 87)%N
  else None.

Fixpoint escape (s : string) : string :=
  match s with
  | EmptyString => EmptyString
  | String c s' =>
      if unreserved c then String c (escape s')
      else
        let n := N_of_ascii c in
        String "%" (String (hex_digit (n / 16))
                      (String (hex_digit (n mod 16)) (escape s')))
  end.

(** Modelled from the spec: the inverse of [escape]; [None] when a [%] is
    not followed by two hexadecimal digits (an invalid escaped
    structure). *)
Fixpoint unescape (s : string) : option string :=
  match s with
  | EmptyString => Some EmptyString
  | String c s1 =>
      if Ascii.eqb c "%" then
        match s1 with
        | String h (String l s') =>
            match hex_value h, hex_value l, unescape s' with
            | Some x, Some y, Some r =>
                Some (String (ascii_of_N (16 * x + y)) r)
            | _, _, _ => None
            end
        | _ => None
        end
      else
        match unescape s1 with
        | Some r => Some (String c r)
        | None => None
        end
  end.

(** Joining components with the separator character. *)
Fixpoint join (sep : ascii) (l : list string) : string :=
  match l with
  | [] => EmptyString
  | [x] => x
  | x :: l' => x ++ String sep (join sep l')
  end.

(** Cutting a string at every separator: the first piece and the others. *)
Fixpoint pieces (sep : ascii) (s : string) : string * list string :=
  match s with
  | EmptyString => (EmptyString, [])
  | String c s' =>
      let (first, others) := pieces sep s' in
      if Ascii.eqb c sep then (EmptyString, first :: others)
      else (String c first, others)
  end.

Definition split (sep : ascii) (s : string) : list string :=
  let (first, others) := pieces sep s in first :: others.

(** The components of a partition name; the empty name has none. *)
Definition components (sep : ascii) (name : string) : list string :=
  match name with
  | EmptyString => []
  | _ => split sep name
  end.

(** Cutting a [key=value] component at its first [=]. *)
Fixpoint key_value (s : string) : option (string * string) :=
  match s with
  | EmptyString => None
  | String c s' =>
      if Ascii.eqb c "=" then Some (EmptyString, s')
      else
        match key_value s' with
        | Some (k, v) => Some (String c k, v)
        | None => None
        end
  end.

Definition decode_component (s : string) : option (string * string) :=
  match key_value s with
  | Some (k, v) =>
      match unescape k, unescape v with
      | Some k', Some v' => Some (k', v')
      | _, _ => None
      end
  | None => None
  end.

Fixpoint decode_components (l : list string) : option (list (string * string)) :=
  match l with
  | [] => Some []
  | s :: l' =>
      match decode_component s, decode_components l' with
      | Some kv, Some kvs => Some (kv :: kvs)
      | _, _ => None
      end
  end.

Fixpoint same_names (a b : list string) : bool :=
  match a, b with
  | [], [] => true
  | x :: a', y :: b' => String.eqb x y && same_names a' b'
  | _, _ => false
  end.

(** One [key=value] pair, each component URL-escaped. *)
Definition pair_text (kv : string * string) : string :=
  escape (fst kv) ++ String "=" (escape (snd kv)).

(** Modelled from the spec: [encode(orderedPartitionKeyNames,
    orderedValues)]; the [key=value] pairs, each component URL-escaped,
    joined by the separator. *)
Definition encode (sep : ascii) (keys values : list string) : string :=
  join sep (map pair_text (combine keys values)).

(** Modelled from the spec: [decode(partitionName)] with the table's
    partition-key names supplied by the caller; fails with
    [MalformedIdentifier] when the escaped structure is invalid, when the
    number of components is not the key arity, or when the keys are not
    the expected ones in the expected order. *)
Definition decode (sep : ascii) (keys : list string) (name : string)
  : MetaException + list string :=
  match decode_components (components sep name) with
  | None => inl MalformedIdentifier
  | Some kvs =>
      if Nat.eqb (length kvs) (length keys) then
        if same_names (map fst kvs) keys then inr (map snd kvs)
        else inl MalformedIdentifier
      else inl MalformedIdentifier
  end.

(** Does the character occur in the string? *)
Fixpoint occurs (c : ascii) (s : string) : bool :=
  match s with
  | EmptyString => false
  | String c' s' => Ascii.eqb c' c || occurs c s'
  end.

(** A character fit to separate components: it is escaped inside a
    component and is neither the escape mark nor the key/value delimiter. *)
Definition separator_ok (sep : ascii) : bool :=
  negb (unreserved sep) && negb (Ascii.eqb sep "%")
  && negb (Ascii.eqb sep "=").

End Codec.

(** ** Sample data *)

Definition sample_partition : Partition :=
  mkPartition "d" "t" ["2024-01-01"] "" [] 0 0.

(** A default-constructed partition, as a fresh result object holds. *)
Definition empty_partition : Partition :=
  mkPartition "" "" [] "" [] 0 0.

Definition sample_table : Table :=
  mkTable "d" "t" [mkFieldSchema "x" "int" None]
    [mkFieldSchema "ds" "string" None] "" [].

(** A type definition that refers to a name defined nowhere. *)
Definition type_A : Type_ := mkType "A" (ListOf "B").

(** * Properties *)

(** ** The Identifier Codec round-trips *)

Section CodecFacts.
Import Codec.

Lemma hex_digit_value (k : N) :
  (k < 16)%N -> hex_value (hex_digit k) = Some k.
Proof.
  intros Hk.
  assert (H : (k = 0 \/ k = 1 \/ k = 2 \/ k = 3 \/ k = 4 \/ k = 5 \/ k = 6
               \/ k = 7 \/ k = 8 \/ k = 9 \/ k = 10 \/ k = 11 \/ k = 12
               \/ k = 13 \/ k = 14 \/ k = 15)%N) by lia.
  repeat (destruct H as [H | H]; [subst k; reflexivity |]).
  subst k; reflexivity.
Qed.

Lemma hex_digit_unreserved (k : N) :
  (k < 16)%N -> unreserved (hex_digit k) = true.
Proof.
  intros Hk.
  assert (H : (k = 0 \/ k = 1 \/ k = 2 \/ k = 3 \/ k = 4 \/ k = 5 \/ k = 6
               \/ k = 7 \/ k = 8 \/ k = 9 \/ k = 10 \/ k = 11 \/ k = 12
               \/ k = 13 \/ k = 14 \/ k = 15)%N) by lia.
  repeat (destruct H as [H | H]; [subst k; reflexivity |]).
  subst k; reflexivity.
Qed.

Lemma code_high (c : ascii) : (N_of_ascii c / 16 < 16)%N.
Proof.
  pose proof (N_ascii_bounded c) as Hb.
  apply N.Div0.div_lt_upper_bound. lia.
Qed.

Lemma code_low (c : ascii) : (N_of_ascii c mod 16 < 16)%N.
Proof. apply N.mod_lt. discriminate. Qed.

Lemma code_rebuild (c : ascii) :
  ascii_of_N (16 * (N_of_ascii c / 16) + N_of_ascii c mod 16) = c.
Proof.
  rewrite <- N.div_mod by discriminate.
  apply ascii_N_embedding.
Qed.

Lemma percent_reserved : unreserved "%" = false.
Proof. reflexivity. Qed.

Lemma unreserved_not_percent (c : ascii) :
  unreserved c = true -> Ascii.eqb c "%" = false.
Proof.
  intros Hc. destruct (Ascii.eqb_spec c "%") as [-> | _]; [| reflexivity].
  rewrite percent_reserved in Hc. discriminate.
Qed.

Lemma unescape_escape (s : string) : unescape (escape s) = Some s.
Proof.
  induction s as [| c s IH]; [reflexivity |].
  simpl escape. destruct (unreserved c) eqn:Hc.
  - simpl unescape. rewrite (unreserved_not_percent c Hc), IH. reflexivity.
  - cbn [unescape]. rewrite Ascii.eqb_refl.
    rewrite (hex_digit_value _ (code_high c)).
    rewrite (hex_digit_value _ (code_low c)).
    rewrite IH, code_rebuild. reflexivity.
Qed.

(** A reserved character other than [%] never shows in an escaped
    component. *)
Lemma escape_hides (x : ascii) (s : string) :
  unreserved x = false -> x <> "%"%char -> occurs x (escape s) = false.
Proof.
  intros Hx Hp.
  assert (Hu : forall c, unreserved c = true -> Ascii.eqb c x = false).
  { intros c Hc. destruct (Ascii.eqb_spec c x) as [-> | _]; [| reflexivity].
    rewrite Hx in Hc. discriminate. }
  induction s as [| c s IH]; [reflexivity |].
  simpl escape. destruct (unreserved c) eqn:Hc.
  - simpl occurs. rewrite (Hu c Hc), IH. reflexivity.
  - cbn [occurs].
    rewrite (Hu _ (hex_digit_unreserved _ (code_high c))).
    rewrite (Hu _ (hex_digit_unreserved _ (code_low c))).
    rewrite IH.
    destruct (Ascii.eqb_spec "%" x) as [E | _]; [| reflexivity].
    exfalso. apply Hp. symmetry. exact E.
Qed.

Lemma key_value_app (a b : string) :
  occurs "=" a = false ->
  key_value (a ++ String "=" b) = Some (a, b).
Proof.
  induction a as [| c a IH]; intros Ha.
  - reflexivity.
  - simpl in Ha. apply orb_false_iff in Ha. destruct Ha as [Hc Ha].
    simpl. rewrite Hc, (IH Ha). reflexivity.
Qed.

Lemma pieces_clean (sep : ascii) (a : string) :
  occurs sep a = false -> pieces sep a = (a, []).
Proof.
  induction a as [| c a IH]; intros Ha; [reflexivity |].
  simpl in Ha. apply orb_false_iff in Ha. destruct Ha as [Hc Ha].
  simpl. rewrite (IH Ha), Hc. reflexivity.
Qed.

Lemma pieces_app (sep : ascii) (a b : string) :
  occurs sep a = false ->
  pieces sep (a ++ String sep b) = (a, split sep b).
Proof.
  induction a as [| c a IH]; intros Ha.
  - simpl. unfold split. destruct (pieces sep b) as [f o].
    rewrite Ascii.eqb_refl. reflexivity.
  - simpl in Ha. apply orb_false_iff in Ha. destruct Ha as [Hc Ha].
    simpl. rewrite (IH Ha), Hc. reflexivity.
Qed.

Variable sep : ascii.
Hypothesis sep_ok : separator_ok sep = true.

Lemma separator_facts :
  unreserved sep = false /\ sep <> "%"%char /\ sep <> "="%char.
Proof.
  unfold separator_ok in sep_ok.
  apply andb_true_iff in sep_ok. destruct sep_ok as [H He].
  apply andb_true_iff in H. destruct H as [Hu Hp].
  apply negb_true_iff in Hu, Hp, He.
  repeat split; [exact Hu | |]; intros ->.
  - rewrite Ascii.eqb_refl in Hp. discriminate.
  - rewrite Ascii.eqb_refl in He. discriminate.
Qed.

Lemma occurs_app (x : ascii) (a b : string) :
  occurs x (a ++ b) = occurs x a || occurs x b.
Proof.
  induction a as [| c a IH]; [reflexivity |].
  simpl. rewrite IH, orb_assoc. reflexivity.
Qed.

Lemma pair_text_clean (kv : string * string) :
  occurs sep (pair_text kv) = false.
Proof.
  destruct separator_facts as (Hu & Hp & He).
  unfold pair_text. rewrite occurs_app. cbn [occurs].
  rewrite !(escape_hides sep) by assumption.
  destruct (Ascii.eqb_spec "=" sep) as [E | _]; [| reflexivity].
  exfalso. apply He. symmetry. exact E.
Qed.

Lemma pair_text_not_empty (kv : string * string) :
  pair_text kv <> EmptyString.
Proof.
  unfold pair_text. destruct (escape (fst kv)); discriminate.
Qed.

Lemma decode_pair_text (kv : string * string) :
  decode_component (pair_text kv) = Some kv.
Proof.
  unfold decode_component, pair_text.
  rewrite key_value_app by (apply escape_hides; [reflexivity | discriminate]).
  rewrite !unescape_escape. destruct kv; reflexivity.
Qed.

Lemma decode_components_pairs (kvs : list (string * string)) :
  decode_components (map pair_text kvs) = Some kvs.
Proof.
  induction kvs as [| kv kvs IH]; [reflexivity |].
  simpl. rewrite decode_pair_text, IH. reflexivity.
Qed.

Lemma join_not_empty (x : string) (l : list string) :
  x <> EmptyString -> join sep (x :: l) <> EmptyString.
Proof.
  intros Hx. destruct l as [| y l]; simpl; [exact Hx |].
  destruct x; [contradiction | discriminate].
Qed.

Lemma split_join (x : string) (l : list string) :
  Forall (fun s => occurs sep s = false /\ s <> EmptyString) (x :: l) ->
  split sep (join sep (x :: l)) = x :: l.
Proof.
  revert x. induction l as [| y l IH]; intros x Hall.
  - inversion Hall as [| ? ? [Hx _] _]; subst.
    simpl. unfold split. rewrite (pieces_clean sep x Hx). reflexivity.
  - inversion Hall as [| ? ? [Hx _] Hrest]; subst.
    change (join sep (x :: y :: l))
      with (x ++ String sep (join sep (y :: l)))%string.
    unfold split at 1. rewrite (pieces_app sep x _ Hx).
    rewrite (IH y Hrest). reflexivity.
Qed.

Lemma components_join (l : list string) :
  Forall (fun s => occurs sep s = false /\ s <> EmptyString) l ->
  components sep (join sep l) = l.
Proof.
  destruct l as [| x l]; intros Hall; [reflexivity |].
  assert (Hx : x <> EmptyString) by (inversion Hall as [| ? ? [_ H] _]; exact H).
  pose proof (join_not_empty x l Hx) as Hne.
  unfold components. destruct (join sep (x :: l)) eqn:E; [contradiction |].
  rewrite <- E. apply split_join. exact Hall.
Qed.

Lemma components_encode (keys values : list string) :
  components sep (encode sep keys values)
  = map pair_text (combine keys values).
Proof.
  unfold encode. apply components_join.
  apply Forall_forall. intros s Hs.
  apply in_map_iff in Hs. destruct Hs as (kv & <- & _).
  split; [apply pair_text_clean | apply pair_text_not_empty].
Qed.

Lemma same_names_refl (l : list string) : same_names l l = true.
Proof.
  induction l as [| x l IH]; [reflexivity |].
  simpl. rewrite String.eqb_refl, IH. reflexivity.
Qed.

Lemma map_fst_combine (A B : Type) (a : list A) (b : list B) :
  length a = length b -> map fst (combine a b) = a.
Proof.
  revert b. induction a as [| x a IH]; intros [| y b] H; simpl in *;
    try reflexivity; try discriminate.
  f_equal. apply IH. congruence.
Qed.

Lemma map_snd_combine (A B : Type) (a : list A) (b : list B) :
  length a = length b -> map snd (combine a b) = b.
Proof.
  revert b. induction a as [| x a IH]; intros [| y b] H; simpl in *;
    try reflexivity; try discriminate.
  f_equal. apply IH. congruence.
Qed.

(** C1.  The codec round-trips: for every separator fit for the purpose,
    every list of partition-key names and every list of values of the
    same length, decoding the encoded partition name against the keys
    gives back exactly the values. *)
Theorem decode_encode (keys values : list string) :
  length keys = length values ->
  decode sep keys (encode sep keys values) = inr values.
Proof.
  intros Hlen. unfold decode.
  rewrite components_encode, decode_components_pairs.
  rewrite length_combine, <- Hlen, Nat.min_id, Nat.eqb_refl.
  rewrite (map_fst_combine _ _ keys values Hlen), same_names_refl.
  rewrite (map_snd_combine _ _ keys values Hlen). reflexivity.
Qed.

End CodecFacts.

Lemma decode_encode_witness :
  length ["ds"; "hr"] = length ["2024-01-01"; "a/b=c d%"]
  /\ Codec.decode "/" ["ds"; "hr"]
       (Codec.encode "/" ["ds"; "hr"] ["2024-01-01"; "a/b=c d%"])
     = inr ["2024-01-01"; "a/b=c d%"].
Proof.
  split; [reflexivity |].
  apply (decode_encode "/"); reflexivity.
Defined.

(** ** What a body made of one [printf] does *)

Lemma call_printf (T R : Type) (s : string) (r : T) (w : World) :
  call (@printf T R s) r w
  = (ReachedEnd, r, mkWorld (handler w) (stdout w ++ s)).
Proof. reflexivity. Qed.

Lemma handler_unique (h1 h2 : ThriftHiveMetastoreHandler) : h1 = h2.
Proof. destruct h1, h2. reflexivity. Qed.

Lemma dispatch_never_fails (q : Request) (w : World) :
  fst (dispatch q w) = None.
Proof. destruct q; reflexivity. Qed.

Lemma dispatch_keeps_handler (q : Request) (w : World) :
  handler (snd (dispatch q w)) = handler w.
Proof. destruct q; reflexivity. Qed.

Lemma add_all_completions (new_part : Partition) (rs : list Partition)
  (w : World) :
  fst (add_all new_part rs w) = map (fun _ => ReachedEnd) rs.
Proof.
  revert w. induction rs as [| r rs IH]; intros w; [reflexivity |].
  simpl. specialize (IH (world_after (call (add_partition new_part) r w))).
  destruct (add_all new_part rs _) as [cs w']. simpl in *.
  rewrite IH. reflexivity.
Qed.

Lemma add_all_handler (new_part : Partition) (rs : list Partition)
  (w : World) :
  handler (snd (add_all new_part rs w)) = handler w.
Proof. apply handler_unique. Qed.

Lemma count_if_map_const (A B : Type) (p : B -> bool) (b : B) (l : list A) :
  count_if p (map (fun _ => b) l) = if p b then length l else 0%nat.
Proof.
  unfold count_if. induction l as [| x l IH]; simpl.
  - destruct (p b); reflexivity.
  - destruct (p b) eqn:E; simpl; rewrite IH; reflexivity.
Qed.

(** ** Adding the same partition twice *)

Lemma add_partition_twice_second_succeeds :
  let first := call (add_partition sample_partition) sample_partition
                 initial_world in
  let second := call (add_partition sample_partition) sample_partition
                  (world_after first) in
  ~ (failure_of (completion first) = None
     /\ failure_of (completion second) = Some AlreadyExists).
Proof. cbv zeta. intros [_ H]. discriminate H. Qed.

(** C3 (amended).  Calling [add_partition] twice with the same partition
    completes normally both times: neither call raises [AlreadyExists]
    or anything else, each leaves the object bound to [_return] as the
    caller supplied it, the handler is the one it was, and the only trace
    of the two calls is two lines on standard output.  No partition is
    stored, so none is stored twice. *)
Theorem add_partition_twice :
  forall (new_part r1 r2 : Partition) (w : World),
    let first := call (add_partition new_part) r1 w in
    let second := call (add_partition new_part) r2 (world_after first) in
    completion first = ReachedEnd
    /\ completion second = ReachedEnd
    /\ failure_of (completion second) = None
    /\ returned_object first = r1
    /\ returned_object second = r2
    /\ handler (world_after second) = handler w
    /\ stdout (world_after second)
       = ((stdout w ++ line "add_partition") ++ line "add_partition")%string.
Proof. intros. repeat split. Qed.

(** ** Listing partitions under a limit *)

Lemma get_partitions_unbounded_misses_added :
  let w := world_of [Req_create_table sample_table;
                     Req_add_partition empty_partition sample_partition]
             initial_world in
  ~ In sample_partition
       (returned_object (call (get_partitions "d" "t" (-1)%Z) [] w))
  /\ ~ In "ds=2024-01-01"
         (returned_object (call (get_partition_names "d" "t" (-1)%Z) [] w)).
Proof. cbv zeta. split; intros H; exact H. Qed.

(** C4 (amended).  [get_partitions] and [get_partition_names] read
    neither [max_parts] nor any stored partition: for every limit they
    hand back the list the caller bound to [_return].  Called with an
    empty list, after any history of requests, they hand back an empty
    list for every limit: the result is empty at 0 and has at most [k]
    entries at [k]; at -1 it is empty as well, whatever partitions
    [add_partition] was called with before, so it is not the full
    partition set. *)
Theorem get_partitions_ignores_limit :
  (forall (r : list Partition) (db t : string) (max_parts : int16_t)
          (w : World),
      returned_object (call (get_partitions db t max_parts) r w) = r)
  /\
  (forall (r : list string) (db t : string) (max_parts : int16_t)
          (w : World),
      returned_object (call (get_partition_names db t max_parts) r w) = r)
  /\
  (forall (history : list Request) (db t : string) (max_parts : int16_t)
          (w : World),
      let w' := world_of history w in
      returned_object (call (get_partitions db t max_parts) [] w') = []
      /\ returned_object (call (get_partition_names db t max_parts) [] w')
         = []
      /\ (length
            (returned_object (call (get_partitions db t max_parts) [] w'))
          <= Z.to_nat max_parts)%nat
      /\ (length
            (returned_object
               (call (get_partition_names db t max_parts) [] w'))
          <= Z.to_nat max_parts)%nat
      /\ (forall P : Partition,
            ~ In P (returned_object
                      (call (get_partitions db t (-1)%Z) [] w')))
      /\ (forall n : string,
            ~ In n (returned_object
                      (call (get_partition_names db t (-1)%Z) [] w')))).
Proof.
  repeat split; intros; try reflexivity;
    try (simpl; apply Nat.le_0_l); intros H; exact H.
Qed.

(** ** Dropping a database *)

Lemma drop_database_raises_no_NotFound :
  completion (call (drop_database "d") tt initial_world) <> Thrown NotFound
  /\ completion
       (call (drop_database "d") tt
          (world_of [Req_create_table sample_table] initial_world))
     <> Thrown NotEmpty
  /\ completion
       (call (drop_database "d") tt
          (world_of [Req_create_table sample_table] initial_world))
     <> Thrown NotFound.
Proof. repeat split; discriminate. Qed.

(** C5 (amended).  [drop_database] checks neither the database nor its
    tables.  For every name and in every world, whatever tables were
    created or dropped before, the body prints the line [drop_database]
    and does nothing else on its way to the closing brace: it raises no
    exception, so neither [NotEmpty] nor [NotFound], and the handler is
    the one it was.  What the caller is handed back is left out. *)
Theorem drop_database_checks_nothing :
  forall (w : World) (name : string),
    let x := call (drop_database name) tt w in
    (forall e : MetaException, completion x <> Thrown e)
    /\ stdout (world_after x) = (stdout w ++ line "drop_database")%string
    /\ handler (world_after x) = handler w.
Proof. intros. repeat split. discriminate. Qed.

(** ** Creating a type *)

Lemma create_type_raises_no_UnknownReference :
  type_references type_A = ["B"]
  /\ completion (call (create_type type_A) tt initial_world)
     <> Thrown UnknownReference.
Proof. split; [reflexivity | discriminate]. Qed.

(** C6 (amended).  [create_type] checks nothing about the names a type
    definition refers to.  For every definition and in every world, the
    body prints the line [create_type] and does nothing else on its way
    to the closing brace: it raises no exception, so neither
    [UnknownReference] nor [CyclicDependency], and the handler is the one
    it was.  What the caller is handed back is left out. *)
Theorem create_type_checks_nothing :
  forall (w : World) (type : Type_),
    let x := call (create_type type) tt w in
    (forall e : MetaException, completion x <> Thrown e)
    /\ stdout (world_after x) = (stdout w ++ line "create_type")%string
    /\ handler (world_after x) = handler w.
Proof. intros. repeat split. discriminate. Qed.

(** ** Several calls of [add_partition] with one value list *)

Lemma two_adds_two_successes :
  let cs := fst (add_all sample_partition
                   [sample_partition; sample_partition] initial_world) in
  ~ (count_if is_success cs = 1%nat
     /\ count_if is_AlreadyExists cs = (2 - 1)%nat).
Proof. cbv zeta. intros [H _]. discriminate H. Qed.

(** C7 (amended).  However many callers run [add_partition] with the same
    partition, and in whatever order their bodies run, every call
    completes normally: as many successes as callers, no [AlreadyExists],
    and the handler is left as it was (nothing is inserted, in part or in
    whole). *)
Theorem add_all_succeed :
  forall (new_part : Partition) (rs : list Partition) (w : World),
    let cs := fst (add_all new_part rs w) in
    length cs = length rs
    /\ count_if is_success cs = length rs
    /\ count_if is_AlreadyExists cs = 0%nat
    /\ handler (snd (add_all new_part rs w)) = handler w.
Proof.
  intros new_part rs w cs. subst cs.
  rewrite add_all_completions. repeat split.
  - apply length_map.
  - apply (count_if_map_const Partition _ is_success ReachedEnd).
  - apply (count_if_map_const Partition _ is_AlreadyExists ReachedEnd).
  - apply add_all_handler.
Qed.

(** ** The query methods leave [_return] alone *)

(** C8.  Every query method hands back the object bound to [_return]
    exactly as the caller supplied it, for all arguments and in every
    world.  The handler has no state of its own (any two handler objects
    are equal), and no request, of any of the 22 [void] methods, fails or
    changes the handler: all a request does is print. *)
Theorem query_methods_keep_return :
  (forall r w name,
      returned_object (call (get_database name) r w) = r)
  /\ (forall r w,
      returned_object (call get_databases r w) = r)
  /\ (forall r w name,
      returned_object (call (get_type name) r w) = r)
  /\ (forall r w name,
      returned_object (call (get_type_all name) r w) = r)
  /\ (forall r w db_name table_name,
      returned_object (call (get_fields db_name table_name) r w) = r)
  /\ (forall r w db_name table_name,
      returned_object (call (get_schema db_name table_name) r w) = r)
  /\ (forall r w db_name pattern,
      returned_object (call (get_tables db_name pattern) r w) = r)
  /\ (forall r w dbname tbl_name,
      returned_object (call (get_table dbname tbl_name) r w) = r)
  /\ (forall r w db_name tbl_name part_vals,
      returned_object (call (get_partition db_name tbl_name part_vals) r w)
      = r)
  /\ (forall r w db_name tbl_name part_name,
      returned_object
        (call (get_partition_by_name db_name tbl_name part_name) r w) = r)
  /\ (forall r w db_name tbl_name max_parts,
      returned_object (call (get_partitions db_name tbl_name max_parts) r w)
      = r)
  /\ (forall r w db_name tbl_name max_parts,
      returned_object
        (call (get_partition_names db_name tbl_name max_parts) r w) = r)
  /\ (forall r w db_name tbl_name part_vals max_parts,
      returned_object
        (call (get_partitions_ps db_name tbl_name part_vals max_parts) r w)
      = r)
  /\ (forall r w db_name tbl_name part_vals max_parts,
      returned_object
        (call (get_partition_names_ps db_name tbl_name part_vals max_parts)
           r w) = r)
  /\ (forall r w name defaultValue,
      returned_object (call (get_config_value name defaultValue) r w) = r)
  /\ (forall h1 h2 : ThriftHiveMetastoreHandler, h1 = h2)
  /\ (forall (q : Request) (w : World),
      fst (dispatch q w) = None
      /\ handler (snd (dispatch q w)) = handler w
      /\ exists s, stdout (snd (dispatch q w)) = (stdout w ++ s)%string)
  /\ (forall (history : list Request) (w : World),
      handler (world_of history w) = handler w).
Proof.
  repeat split; intros; try reflexivity; try apply handler_unique.
  - apply dispatch_never_fails.
  - destruct q; eexists; reflexivity.
Qed.

(** ** The [bool] methods return nothing *)

(** C9.  Each method declared with result type [bool] reaches the closing
    brace of its body, for all arguments and in every world: the body
    completes neither through a [return] statement nor through an
    exception, so the caller is handed no boolean. *)
Theorem bool_methods_reach_end :
  (forall w name description,
      no_boolean_result (call (create_database name description) tt w))
  /\ (forall w name,
      no_boolean_result (call (drop_database name) tt w))
  /\ (forall w type,
      no_boolean_result (call (create_type type) tt w))
  /\ (forall w type,
      no_boolean_result (call (drop_type type) tt w))
  /\ (forall w db_name tbl_name part_vals deleteData,
      no_boolean_result
        (call (drop_partition db_name tbl_name part_vals deleteData) tt w))
  /\ (forall w db_name tbl_name part_name deleteData,
      no_boolean_result
        (call (drop_partition_by_name db_name tbl_name part_name deleteData)
           tt w)).
Proof.
  repeat split; intros; try reflexivity; discriminate.
Qed.

(** ** The server [main] builds *)

(** C10.  Whatever the command line, [main] builds the same server: a
    [TSimpleServer] over the processor of a fresh handler, listening on a
    server socket on port 9090, with the buffered transport factory and
    the binary protocol factory; [argc] and [argv] play no part. *)
Theorem main_builds_simple_server :
  forall (argc : Z) (argv : list string),
    serverTransport (served (main argc argv)) = TServerSocket 9090
    /\ socket_port (serverTransport (served (main argc argv))) = 9090%Z
    /\ transportFactory (served (main argc argv)) = TBufferedTransportFactory
    /\ protocolFactory (served (main argc argv)) = TBinaryProtocolFactory
    /\ processor (served (main argc argv))
       = ThriftHiveMetastoreProcessor new_ThriftHiveMetastoreHandler
    /\ (forall (argc' : Z) (argv' : list string),
           main argc argv = main argc' argv').
Proof. intros. repeat split. Qed.

(** * Further properties of the skeleton *)

(** ** Standard output as a record of the calls *)

Lemma append_assoc (a b c : string) :
  ((a ++ b) ++ c = a ++ (b ++ c))%string.
Proof.
  induction a as [| x a IH]; [reflexivity |].
  simpl. rewrite IH. reflexivity.
Qed.

Lemma append_empty_r (a : string) : (a ++ "" = a)%string.
Proof.
  induction a as [| x a IH]; [reflexivity |].
  simpl. rewrite IH. reflexivity.
Qed.

Lemma dispatch_prints (q : Request) (w : World) :
  snd (dispatch q w)
  = mkWorld (handler w) (stdout w ++ line (method_name (method_of q))).
Proof. destruct q; reflexivity. Qed.

Lemma world_of_cons (q : Request) (qs : list Request) (w : World) :
  world_of (q :: qs) w = world_of qs (snd (dispatch q w)).
Proof.
  unfold world_of. simpl.
  destruct (dispatch q w) as [e w']. simpl.
  destruct (serve_all qs w') as [es w'']. reflexivity.
Qed.

Lemma world_of_log (history : list Request) (w : World) :
  world_of history w
  = mkWorld (handler w) (stdout w ++ log (map method_of history)).
Proof.
  revert w. induction history as [| q qs IH]; intros w.
  - unfold world_of. simpl. rewrite append_empty_r. destruct w; reflexivity.
  - rewrite world_of_cons, IH, dispatch_prints. simpl.
    rewrite append_assoc. reflexivity.
Qed.

(** X1.  After any history of requests (calls of the [void] methods),
    standard output is what it was
    before followed by one line per request, in the order of the
    requests, each line the identifier of the method called; the handler
    is the one the history started with. *)
Theorem history_log :
  forall (history : list Request) (w : World),
    world_of history w
    = mkWorld (handler w) (stdout w ++ log (map method_of history)).
Proof. exact world_of_log. Qed.

(** X2.  No request of any history of calls of the [void] methods
    fails: whatever the requests, their
    arguments and their order, the list of failures holds one entry per
    request and every entry says that no exception was raised. *)
Theorem history_never_fails :
  forall (history : list Request) (w : World),
    fst (serve_all history w) = repeat None (length history).
Proof.
  induction history as [| q qs IH]; intros w; [reflexivity |].
  simpl. pose proof (dispatch_never_fails q w) as Hq.
  destruct (dispatch q w) as [e w']. simpl in Hq. subst e.
  specialize (IH w'). destruct (serve_all qs w') as [es w''].
  simpl in *. rewrite IH. reflexivity.
Qed.

Lemma newlines_app (a b : string) :
  newlines (a ++ b) = newlines a + newlines b.
Proof.
  induction a as [| x a IH]; [reflexivity |].
  simpl. rewrite IH. apply Nat.add_assoc.
Qed.

Lemma method_name_one_line (m : Method) : newlines (method_name m) = 0.
Proof. destruct m; reflexivity. Qed.

Lemma newlines_line (a : string) : newlines (line a) = S (newlines a).
Proof.
  unfold line. rewrite newlines_app. simpl. rewrite Nat.add_comm. reflexivity.
Qed.

Lemma newlines_log (ms : list Method) : newlines (log ms) = length ms.
Proof.
  induction ms as [| m ms IH]; [reflexivity |].
  simpl. rewrite newlines_app, newlines_line, method_name_one_line, IH.
  reflexivity.
Qed.

(** Two texts that start with a line start with the same line. *)
Lemma line_cancel (a b s t : string) :
  newlines a = 0 -> newlines b = 0 ->
  (line a ++ s = line b ++ t)%string -> a = b /\ s = t.
Proof.
  revert b. induction a as [| x a IH]; intros [| y b] Ha Hb E.
  - injection E as E. split; [reflexivity | exact E].
  - exfalso. injection E as Ec _. subst y. simpl in Hb. discriminate.
  - exfalso. injection E as Ec _. subst x. simpl in Ha. discriminate.
  - injection E as Ec E. subst y.
    simpl in Ha, Hb.
    destruct (IH b) as [Hab Hst].
    + destruct (Ascii.eqb x "010"); [discriminate | exact Ha].
    + destruct (Ascii.eqb x "010"); [discriminate | exact Hb].
    + exact E.
    + subst b. split; [reflexivity | exact Hst].
Qed.

Lemma method_name_injective (m1 m2 : Method) :
  method_name m1 = method_name m2 -> m1 = m2.
Proof.
  destruct m1, m2; intros E; try reflexivity;
    apply String.eqb_eq in E; vm_compute in E; discriminate E.
Qed.

Lemma log_injective (ms1 ms2 : list Method) :
  log ms1 = log ms2 -> ms1 = ms2.
Proof.
  revert ms2. induction ms1 as [| m1 ms1 IH]; intros [| m2 ms2] E.
  - reflexivity.
  - apply (f_equal newlines) in E. rewrite !newlines_log in E. discriminate.
  - apply (f_equal newlines) in E. rewrite !newlines_log in E. discriminate.
  - simpl in E.
    apply line_cancel in E; try apply method_name_one_line.
    destruct E as [En El].
    apply method_name_injective in En. subst m2.
    rewrite (IH ms2 El). reflexivity.
Qed.

Lemma append_cancel_l (a s t : string) :
  (a ++ s = a ++ t)%string -> s = t.
Proof.
  induction a as [| x a IH]; intros E; [exact E |].
  injection E as E. exact (IH E).
Qed.

(** X3.  Standard output tells the calls of the [void] methods apart:
    when two histories
    started in the same world leave the same text on standard output,
    they called the same methods in the same order. *)
Theorem stdout_determines_calls :
  forall (h1 h2 : list Request) (w : World),
    stdout (world_of h1 w) = stdout (world_of h2 w) ->
    map method_of h1 = map method_of h2.
Proof.
  intros h1 h2 w E. rewrite !world_of_log in E. simpl in E.
  apply log_injective. exact (append_cancel_l _ _ _ E).
Qed.

Lemma stdout_determines_calls_witness :
  stdout (world_of [Req_get_partition sample_partition "d" "t" ["a"];
                    Req_drop_table "d" "t" true] initial_world)
  = stdout (world_of [Req_get_partition sample_partition "e" "u" [];
                      Req_drop_table "e" "u" false] initial_world)
  /\ map method_of [Req_get_partition sample_partition "d" "t" ["a"];
                    Req_drop_table "d" "t" true]
     = map method_of [Req_get_partition sample_partition "e" "u" [];
                      Req_drop_table "e" "u" false].
Proof.
  split; [reflexivity |].
  apply (stdout_determines_calls _ _ initial_world). reflexivity.
Defined.

(** X4.  Every request (a call of a [void] method) adds exactly one
    line to standard output: after a
    history, the number of newline characters has grown by the number of
    requests served. *)
Theorem one_line_per_request :
  forall (history : list Request) (w : World),
    newlines (stdout (world_of history w))
    = newlines (stdout w) + length history.
Proof.
  intros history w. rewrite world_of_log. simpl.
  rewrite newlines_app, newlines_log, length_map. reflexivity.
Qed.

(** ** Arguments play no part *)




(** ** Creating and looking up *)

(** X6.  The three methods that create a partition and have a [_return]
    parameter complete normally and hand back the object bound to
    [_return] as the caller supplied it: the caller is not given the
    partition it asked for, [add_partition] does not copy [new_part]. *)
Theorem partition_creators_keep_return :
  forall (r : Partition) (w : World),
    (forall new_part,
        completion (call (add_partition new_part) r w) = ReachedEnd
        /\ returned_object (call (add_partition new_part) r w) = r)
    /\ (forall db_name tbl_name part_vals,
        completion (call (append_partition db_name tbl_name part_vals) r w)
        = ReachedEnd
        /\ returned_object
             (call (append_partition db_name tbl_name part_vals) r w) = r)
    /\ (forall db_name tbl_name part_name,
        completion
          (call (append_partition_by_name db_name tbl_name part_name) r w)
        = ReachedEnd
        /\ returned_object
             (call (append_partition_by_name db_name tbl_name part_name) r w)
           = r).
Proof. intros. repeat split. Qed.
